(** * notion-google-tasks-syncer: a model of [main.py] and its properties

    [main.py] mirrors tasks of a Notion database into a Google Tasks list.
    This file embeds its functions ([extract_notion_id],
    [update_google_task_status], [sync_inbox_to_gtasks] and the main loop)
    and proves the properties its specification states about them. *)

From Stdlib Require Import String Ascii.
From stdpp Require Import gmap strings list fin_maps.

Local Open Scope N_scope.

(** ** Python strings

    A Python [str] is a sequence of Unicode code points. *)

Abbreviation pystr := (list N).

(** A literal of the source, written as a Rocq string. *)
Definition str (s : string) : pystr :=
  map N_of_ascii (list_ascii_of_string s).
Arguments str : simpl never.

(** Truth value of an optional string in an [if]: [None] and [''] are
    false. *)
Definition truthy (o : option pystr) : bool :=
  match o with
  | Some (_ :: _) => true
  | _ => false
  end.

(** ** The fragment of Python's [re] that [main.py] uses

    A pattern is a sequence of items, each one atom with a quantifier; an
    item is inside capture group 1 or outside every group.  Matching is
    the backtracking search of [re]: quantifiers are greedy and give
    characters back when the rest of the pattern fails. *)

Module Re.

Inductive atom : Type :=
| Chr (c : N)      (* a literal character *)
| Space            (* \s *)
| NonSpace.        (* \S *)

Inductive quant : Type :=
| One              (* no quantifier *)
| Star             (* the quantifier * *)
| Plus.            (* the quantifier + *)

Record item : Type := Item {
  it_atom : atom;
  it_quant : quant;
  it_group : bool   (* inside the parentheses of group 1 *)
}.

(** [\s] on a [str] pattern: the code points for which [str.isspace]
    holds. *)
Definition is_space (c : N) : bool :=
  ((9 <=? c) && (c <=? 13))
  || ((28 <=? c) && (c <=? 32))
  || (c =? 133) || (c =? 160) || (c =? 5760)
  || ((8192 <=? c) && (c <=? 8202))
  || (c =? 8232) || (c =? 8233) || (c =? 8239) || (c =? 8287)
  || (c =? 12288).

Definition accepts (a : atom) (c : N) : bool :=
  match a with
  | Chr c' => c =? c'
  | Space => is_space c
  | NonSpace => negb (is_space c)
  end.

(** Text of group 1: [c] is added in front when the item that consumed
    it is in the group. *)
Definition capture (grp : bool) (c : N) (r : option pystr) : option pystr :=
  match r with
  | Some g => Some (if grp then c :: g else g)
  | None => None
  end.

(** Greedy repetition of an atom: take the next character when the atom
    accepts it and the rest then matches, otherwise stop here and hand
    over to the continuation [k] (the rest of the pattern). *)
Fixpoint greedy (a : atom) (grp : bool) (k : pystr -> option pystr)
    (s : pystr) : option pystr :=
  match s with
  | c :: s' =>
      if accepts a c then
        match capture grp c (greedy a grp k s') with
        | Some g => Some g
        | None => k s
        end
      else k s
  | [] => k []
  end.

(** Match the pattern at the start of [s]; the result is the text of
    group 1. *)
Fixpoint match_here (p : list item) (s : pystr) : option pystr :=
  match p with
  | [] => Some []
  | Item a q grp :: p' =>
      match q with
      | One =>
          match s with
          | c :: s' =>
              if accepts a c then capture grp c (match_here p' s') else None
          | [] => None
          end
      | Star => greedy a grp (match_here p') s
      | Plus =>
          match s with
          | c :: s' =>
              if accepts a c
              then capture grp c (greedy a grp (match_here p') s')
              else None
          | [] => None
          end
      end
  end.

(** [re.search]: the match at the leftmost position that has one. *)
Fixpoint search (p : list item) (s : pystr) : option pystr :=
  match match_here p s with
  | Some g => Some g
  | None =>
      match s with
      | [] => None
      | _ :: s' => search p s'
      end
  end.

(** A run of literal characters. *)
Definition literal (l : pystr) : list item :=
  map (fun c => Item (Chr c) One false) l.

End Re.

(** ** Google tasks

    A task object of the Google Tasks client, with the fields [main.py]
    reads.  [completed] is the completion timestamp, [None] while the task
    is open. *)

Record GTask : Type := mkGTask {
  task_id : pystr;
  title : pystr;
  notes : option pystr;
  completed : option Z
}.

(** ** [extract_notion_id] *)

Definition LABEL : pystr := str "Notion ID:".

(** The pattern [r'Notion ID:\s*(\S+)']. *)
Definition NOTION_ID_RE : list Re.item :=
  Re.literal LABEL
  ++ [Re.Item Re.Space Re.Star false; Re.Item Re.NonSpace Re.Plus true].

Definition extract_notion_id (gtask : GTask) : option pystr :=
  if truthy (notes gtask) then
    match notes gtask with
    | Some n => Re.search NOTION_ID_RE n
    | None => None
    end
  else None.

(** ** Effects

    What the program does to the outside is kept in a [World]: the clock,
    the effects in the order they happened, and the task lists of the
    Google Tasks account.  A computation either returns or raises. *)

(** Exceptions.  The first four are the ones the code of [main.py] can
    raise, [OtherException] is any other exception of class [Exception],
    by the name of its class and its message; [KeyboardInterrupt] and
    [SystemExit] derive from [BaseException] only. *)
Inductive exn : Type :=
| StopIteration
| KeyError (key : pystr)
| AttributeError (name : pystr)
| SchemaError (name : pystr)
| OtherException (cls msg : pystr)
| KeyboardInterrupt
| SystemExit.

(** [isinstance(e, Exception)]. *)
Definition is_Exception (e : exn) : bool :=
  match e with
  | KeyboardInterrupt | SystemExit => false
  | _ => true
  end.

Inductive result (A : Type) : Type :=
| Ok (a : A)
| Raise (e : exn).
Arguments Ok {A} a.
Arguments Raise {A} e.

Inductive event : Type :=
| Print (line : pystr)            (* print(line) *)
| MarkCompleted (id : pystr)      (* gtask.mark_completed() *)
| MarkIncomplete (id : pystr)     (* gtask.mark_incomplete() *)
| Update (t : GTask)              (* gtask.update() *)
| Sleep (seconds : Z).            (* time.sleep(seconds) *)

Record World : Type := mkWorld {
  clock : Z;
  trace : list event;
  tasklists : gmap pystr (list GTask)
}.

Definition M (A : Type) : Type := World -> result A * World.

Definition ret {A} (a : A) : M A := fun w => (Ok a, w).

Definition raise {A} (e : exn) : M A := fun w => (Raise e, w).

Definition bind {A B} (c : M A) (k : A -> M B) : M B :=
  fun w =>
    match c w with
    | (Ok a, w') => k a w'
    | (Raise e, w') => (Raise e, w')
    end.

Notation "x <- c ;; k" := (bind c (fun x => k))
  (at level 100, c at next level, right associativity).
Notation "c ;;; k" := (bind c (fun _ => k))
  (at level 100, right associativity).

(** [try: c  except Exception as e: h e]: the handler takes the
    exceptions of class [Exception], any other goes on to the caller. *)
Definition try_except {A} (c : M A) (h : exn -> M A) : M A :=
  fun w =>
    match c w with
    | (Ok a, w') => (Ok a, w')
    | (Raise e, w') => if is_Exception e then h e w' else (Raise e, w')
    end.

Definition emit (e : event) : M unit :=
  fun w => (Ok tt, mkWorld (clock w) (trace w ++ [e]) (tasklists w)).

Definition print (line : pystr) : M unit := emit (Print line).

Definition sleep (seconds : Z) : M unit :=
  fun w =>
    (Ok tt, mkWorld (clock w + seconds)%Z (trace w ++ [Sleep seconds]) (tasklists w)).

(** Modelled from the spec: the three methods of the Google Tasks client's
    task object that [update_google_task_status] calls; the client library
    is not part of the repository.  [mark_completed] sets the completion
    timestamp, [mark_incomplete] clears it, and [update] is the call that
    persists the task to the service. *)
Definition mark_completed (g : GTask) : M GTask :=
  fun w =>
    (Ok (mkGTask (task_id g) (title g) (notes g) (Some (clock w))),
     mkWorld (clock w) (trace w ++ [MarkCompleted (task_id g)]) (tasklists w)).

Definition mark_incomplete (g : GTask) : M GTask :=
  fun w =>
    (Ok (mkGTask (task_id g) (title g) (notes g) None),
     mkWorld (clock w) (trace w ++ [MarkIncomplete (task_id g)]) (tasklists w)).

Definition update (g : GTask) : M GTask :=
  _ <- emit (Update g) ;; ret g.

(** ** [update_google_task_status] *)

(** [x is not None]. *)
Definition is_not_None {A} (o : option A) : bool :=
  match o with
  | Some _ => true
  | None => false
  end.

(** The task object is mutated in place; the model returns it. *)
Definition update_google_task_status (gtask : GTask) (notion_done : bool)
    : M GTask :=
  let gtask_is_done := is_not_None (completed gtask) in
  gtask <-
    (if notion_done && negb gtask_is_done then
       gtask <- mark_completed gtask ;;
       print (str "Marked '" ++ title gtask
                ++ str "' as completed in Google Tasks.") ;;;
       ret gtask
     else if negb notion_done && gtask_is_done then
       gtask <- mark_incomplete gtask ;;
       print (str "Marked '" ++ title gtask
                ++ str "' as not completed in Google Tasks.") ;;;
       ret gtask
     else ret gtask) ;;
  update gtask.

(** ** The Notion database and the query filter *)

Inductive PropValue : Type :=
| Checkbox (b : bool)
| Select (name : pystr)
| Date (d : option Z).

Global Instance PropValue_eq_dec : EqDecision PropValue.
Proof. solve_decision. Defined.

Record Page : Type := mkPage {
  page_id : pystr;
  page_title : pystr;
  props : gmap pystr PropValue
}.

(** A column of the schema: its name and the names of the options of its
    type. *)
Record Column : Type := mkColumn {
  col_name : pystr;
  options : list pystr
}.

Record Database : Type := mkDatabase {
  is_empty : bool;
  schema : gmap pystr Column;
  pages : list Page
}.

(** The conditions [main.py] builds with [uno.prop]. *)
Inductive Condition : Type :=
| HasValue (prop : pystr) (value : pystr)   (* uno.prop(p).has_value(v) *)
| Equals (prop : pystr) (value : bool)      (* uno.prop(p) == value *)
| And (c1 c2 : Condition).                  (* c1 & c2 *)

(** Modelled from the spec: the Notion service evaluates a condition on a
    page; the service is not part of the repository.  A status condition
    holds when the page's property is the named option, a checkbox
    condition when the property is that boolean. *)
Fixpoint holds (c : Condition) (p : Page) : bool :=
  match c with
  | HasValue prop v => bool_decide (props p !! prop = Some (Select v))
  | Equals prop b => bool_decide (props p !! prop = Some (Checkbox b))
  | And c1 c2 => holds c1 p && holds c2 p
  end.

Definition status_filter : Condition := HasValue (str "Status") (str "Organized").
Definition for_later_filter : Condition := Equals (str "For Later") false.
Definition dump_it_filter : Condition := Equals (str "Dump It") false.

Definition combined_filter : Condition :=
  And (And status_filter for_later_filter) dump_it_filter.

(** [inbox_db.query.filter(c).execute()]. *)
Definition query (db : Database) (c : Condition) : list Page :=
  filter (fun p => holds c p = true) (pages db).

(** ** [sync_inbox_to_gtasks] *)

Definition DATABASE_ID : pystr := str "110f4691b8df8196963fd95c0a64682f".

(** The arguments [main.py] passes to the library's [SyncGTasks]. *)
Record SyncGTasks : Type := mkSyncGTasks {
  notion_db : Database;
  tasklist : pystr;
  completed_col : Column;
  completed_val : pystr;
  not_completed_val : pystr;
  due_col : Column
}.

(** [sync_task.run_every(seconds=s).in_total(times=n).schedule()]. *)
Record Scheduled : Type := mkScheduled {
  sync_task : SyncGTasks;
  every_seconds : Z;
  in_total : nat
}.

(** [next(it)] without a default. *)
Definition next {A} (l : list A) : M A :=
  match l with
  | x :: _ => ret x
  | [] => raise StopIteration
  end.

(** [d[key]] on a mapping. *)
Definition getitem {V} (d : gmap pystr V) (key : pystr) : M V :=
  match d !! key with
  | Some v => ret v
  | None => raise (KeyError key)
  end.

(** [col.type.options[name]]. *)
Definition option_named (col : Column) (name : pystr) : M pystr :=
  if bool_decide (name ∈ options col) then ret name else raise (KeyError name).

(** [inbox_db.schema.status]: the schema's attribute for the property
    [Status]. *)
Definition schema_status (db : Database) : M Column :=
  match schema db !! str "Status" with
  | Some c => ret c
  | None => raise (AttributeError (str "status"))
  end.

(** [inbox_db.schema.get_prop(name)]. *)
Definition get_prop (db : Database) (name : pystr) : M Column :=
  match schema db !! name with
  | Some c => ret c
  | None => raise (SchemaError name)
  end.

(** [gtasks.get_or_create_tasklist(name)]: the list is created empty when
    the account has none of that name. *)
Definition get_or_create_tasklist (name : pystr) : M pystr :=
  fun w =>
    match tasklists w !! name with
    | Some _ => (Ok name, w)
    | None => (Ok name, mkWorld (clock w) (trace w) (<[name := []]> (tasklists w)))
    end.

(** [for x in l: body x]. *)
Fixpoint for_each {A} (l : list A) (body : A -> M unit) : M unit :=
  match l with
  | [] => ret tt
  | x :: l' => body x ;;; for_each l' body
  end.

Definition newline : pystr := [10].

Section Orchestrator.

(** [str(v)] of a property value, as the f-strings print it. *)
Variable render : PropValue -> pystr.

(** The library's [sync.run_all_tasks()]: what running the scheduled
    sync tasks does to the task lists of the account.  The library is
    not part of the repository; the model takes its behaviour as given. *)
Variable run_all_tasks :
  list Scheduled -> gmap pystr (list GTask) -> gmap pystr (list GTask).

(** The function first sets the paths of the credentials and opens the
    sessions of the two clients; [inbox_db] is the database that
    [notion.get_db(DATABASE_ID)] returned. *)
Definition sync_inbox_to_gtasks (inbox_db : Database) : M unit :=
  if is_empty inbox_db then
    print (str "Could not load the Notion database with ID: "
             ++ DATABASE_ID ++ str ".")
  else
    status_attr <- schema_status inbox_db ;;
    organized_option <-
      next (filter (fun o => o = str "Organized") (options status_attr)) ;;
    results <- ret (query inbox_db combined_filter) ;;
    for_each results (fun task =>
      print (str "Task: " ++ page_title task) ;;;
      v <- getitem (props task) (str "Status") ;;
      print (str "Status: " ++ render v) ;;;
      v <- getitem (props task) (str "For later") ;;
      print (str "For Later: " ++ render v) ;;;
      v <- getitem (props task) (str "Dump it") ;;
      print (str "Dump It: " ++ render v ++ newline)) ;;;
    status_col <- get_prop inbox_db (str "Status") ;;
    due_date_col <- get_prop inbox_db (str "Date") ;;
    tasklist <- get_or_create_tasklist (str "My synced task list") ;;
    done_val <- option_named status_col (str "Done") ;;
    backlog_val <- option_named status_col (str "Backlog") ;;
    sync_task <- ret (mkSyncGTasks inbox_db tasklist status_col
                        done_val backlog_val due_date_col) ;;
    (fun w => (Ok tt, mkWorld (clock w) (trace w)
                        (run_all_tasks [mkScheduled sync_task 1 2] (tasklists w)))) ;;;
    print (str "Sync complete." ++ newline).

(** ** The main loop *)

Definition SYNC_INTERVAL : Z := 60.

(** [str(e)] of a caught exception. *)
Variable message : exn -> pystr.

(** The database [get_db] returns in each cycle. *)
Variable inbox : nat -> Database.

(** The body of [while True], as a function of the call in its [try]. *)
Definition loop_pass (call : M unit) : M unit :=
  try_except call
    (fun e => print (str "An error occurred during sync: " ++ message e)) ;;;
  sleep SYNC_INTERVAL.

(** One pass through the loop. *)
Definition loop_body (cycle : nat) : M unit :=
  loop_pass (sync_inbox_to_gtasks (inbox cycle)).

(** [while True: body], cut after [fuel] passes: the result is [Ok]
    when all of them completed and the loop goes on, and [Raise e] when
    an exception left the loop. *)
Fixpoint while_true (body : nat -> M unit) (cycle fuel : nat) : M unit :=
  match fuel with
  | O => ret tt
  | S fuel' => body cycle ;;; while_true body (S cycle) fuel'
  end.

Definition main (fuel : nat) : M unit :=
  print (str "Starting Notion-to-Google Tasks sync...") ;;;
  while_true loop_body 0 fuel.

End Orchestrator.

(** ** Vocabulary of the properties *)

(** A task is done when its completion timestamp is present. *)
Definition is_done (g : GTask) : bool := is_not_None (completed g).

(** The effects a computation adds to the trace of [w]. *)
Definition effects {A} (c : M A) (w : World) : list event :=
  drop (length (trace w)) (trace (snd (c w))).

Definition is_update (e : event) : bool :=
  match e with
  | Update _ => true
  | _ => false
  end.

Definition is_mark (e : event) : bool :=
  match e with
  | MarkCompleted _ | MarkIncomplete _ => true
  | _ => false
  end.

Definition is_print (e : event) : bool :=
  match e with
  | Print _ => true
  | _ => false
  end.

(** The durations of the sleeps in a trace, in order. *)
Fixpoint sleeps (t : list event) : list Z :=
  match t with
  | [] => []
  | Sleep s :: t' => s :: sleeps t'
  | _ :: t' => sleeps t'
  end.

(** [s.startswith(p)] and [s.find(sub)], to compute where the label
    occurs in a concrete string. *)
Fixpoint starts_with (p s : pystr) : bool :=
  match p, s with
  | [], _ => true
  | c :: p', d :: s' => (c =? d) && starts_with p' s'
  | _ :: _, [] => false
  end.

Fixpoint find (sub s : pystr) : option nat :=
  if starts_with sub s then Some O
  else match s with
       | [] => None
       | _ :: s' => S <$> find sub s'
       end.

(** [sub] occurs in [s]. *)
Definition occurs (sub s : pystr) : Prop :=
  exists a b, s = a ++ sub ++ b.

(** A token ends where the string ends or white space follows. *)
Definition token_end (rest : pystr) : Prop :=
  match rest with
  | [] => True
  | c :: _ => Re.is_space c = true
  end.

(** No character of [x] is white space. *)
Definition nonspace (x : pystr) : bool :=
  forallb (fun c => negb (Re.is_space c)) x.

(** The notes [s] hold, after [pre], the label, then the white space [ws]
    (possibly none), then the token [tok] of non-space characters, which
    ends where [rest] begins. *)
Definition occurrence (s pre ws tok rest : pystr) : Prop :=
  s = pre ++ LABEL ++ ws ++ tok ++ rest
  /\ forallb Re.is_space ws = true
  /\ tok <> []
  /\ nonspace tok = true
  /\ token_end rest.

(** A computation whose only effects on the trace are prints. *)
Definition prints_only {A} (c : M A) : Prop :=
  forall w, exists lines, trace (snd (c w)) = trace w ++ map Print lines.

(** A computation that raises no exception outside the class
    [Exception]. *)
Definition raises_only_exceptions {A} (c : M A) : Prop :=
  forall w e w', c w = (Raise e, w') -> is_Exception e = true.

(** ** A concrete scenario

    A database with one page that passes the filter and whose [Done!]
    checkbox is ticked, and an account whose synced list already holds the
    task of that page, still open, with the back-reference in its notes.
    The page carries its two checkboxes under the names the filter uses
    and under the names the prints use. *)

Definition scenario_page : Page :=
  mkPage (str "abc123") (str "Buy milk")
    {[ str "Status" := Select (str "Organized");
       str "For Later" := Checkbox false;
       str "Dump It" := Checkbox false;
       str "For later" := Checkbox false;
       str "Dump it" := Checkbox false;
       str "Done!" := Checkbox true ]}.

Definition scenario_status_col : Column :=
  mkColumn (str "Status")
    [str "To Organize"; str "Organized"; str "Dump"; str "Backlog"; str "Done"].

Definition scenario_date_col : Column := mkColumn (str "Date") [].

Definition scenario_db : Database :=
  mkDatabase false
    {[ str "Status" := scenario_status_col; str "Date" := scenario_date_col ]}
    [scenario_page].

Definition scenario_task : GTask :=
  mkGTask (str "t1") (str "Buy milk") (Some (str "Notion ID: abc123")) None.

Definition scenario_world : World :=
  mkWorld 0 [] {[ str "My synced task list" := [scenario_task] ]}.

(** ** Vocabulary of the further properties *)

(** A database whose [Status] column has no option [Organized], and a
    database that reports [is_empty]. *)

Definition no_organized_db : Database :=
  mkDatabase false
    {[ str "Status" := mkColumn (str "Status") [str "Backlog"; str "Done"];
       str "Date" := scenario_date_col ]}
    [scenario_page].

Definition empty_db : Database := mkDatabase true ∅ [].

(** The line [sync_inbox_to_gtasks] prints for an empty database. *)
Definition COULD_NOT_LOAD : pystr :=
  str "Could not load the Notion database with ID: 110f4691b8df8196963fd95c0a64682f.".

(** * Properties *)

(** ** The regular expression *)

Example extract_example :
  extract_notion_id (mkGTask (str "t1") (str "Buy milk")
                       (Some (str "Synced. Notion ID:   abc123 (do not edit)")) None)
  = Some (str "abc123").
Proof. vm_compute. reflexivity. Qed.

Example extract_first_of_two :
  extract_notion_id (mkGTask (str "t1") (str "Buy milk")
                       (Some (str "Notion ID: a1 Notion ID: b2")) None)
  = Some (str "a1").
Proof. vm_compute. reflexivity. Qed.

Example extract_label_only :
  extract_notion_id (mkGTask (str "t1") (str "Buy milk")
                       (Some (str "Notion ID:   ")) None)
  = None.
Proof. vm_compute. reflexivity. Qed.

Lemma starts_with_app (p t : pystr) : starts_with p (p ++ t) = true.
Proof.
  induction p as [|c p IH]; simpl; [done|].
  by rewrite N.eqb_refl, IH.
Qed.

Lemma starts_with_inv (p s : pystr) :
  starts_with p s = true -> exists t, s = p ++ t.
Proof.
  revert s. induction p as [|c p IH]; intros s H; simpl in *.
  - by exists s.
  - destruct s as [|d s]; [done|].
    apply andb_true_iff in H as [Hc Hp].
    apply N.eqb_eq in Hc as ->.
    destruct (IH _ Hp) as [t ->]. by exists t.
Qed.

Lemma find_None (sub s : pystr) : find sub s = None <-> ~ occurs sub s.
Proof.
  induction s as [|c s IH]; simpl.
  - destruct (starts_with sub []) eqn:E.
    + split; [done|]. intros H. destruct H.
      apply starts_with_inv in E as [t ->]. by exists [], t.
    + split; [|done]. intros _ (a & b & H).
      destruct a; [|done]. simpl in H. rewrite H, starts_with_app in E. done.
  - destruct (starts_with sub (c :: s)) eqn:E.
    + split; [done|]. intros H. destruct H.
      apply starts_with_inv in E as [t ->]. by exists [], t.
    + rewrite fmap_None, IH. split.
      * intros Hn (a & b & H). destruct a as [|a0 a].
        -- simpl in H. rewrite H, starts_with_app in E. done.
        -- injection H as -> ->. apply Hn. by exists a, b.
      * intros Hn (a & b & ->). apply Hn. by exists (c :: a), b.
Qed.

Lemma find_Some (sub s : pystr) (n : nat) :
  find sub s = Some n <->
  (exists a b, s = a ++ sub ++ b /\ length a = n)
  /\ (forall a b, s = a ++ sub ++ b -> (n <= length a)%nat).
Proof.
  revert n. induction s as [|c s IH]; intros n; simpl.
  - destruct (starts_with sub []) eqn:E.
    + apply starts_with_inv in E as [t E]. split.
      * intros [= <-]. split; [by exists [], t|]. intros; lia.
      * intros [(a & b & H & <-) _]. by destruct a.
    + split; [done|]. intros [(a & b & H & _) _].
      destruct a; [|done]. simpl in H. by rewrite H, starts_with_app in E.
  - destruct (starts_with sub (c :: s)) eqn:E.
    + apply starts_with_inv in E as [t E]. split.
      * intros [= <-]. split; [by exists [], t|]. intros; lia.
      * intros [_ Hmin]. specialize (Hmin [] t E). simpl in Hmin.
        f_equal. lia.
    + rewrite fmap_Some. split.
      * intros (m & Hm & ->). apply IH in Hm as [(a & b & -> & <-) Hmin].
        split; [by exists (c :: a), b|].
        intros a' b' H. destruct a' as [|a0 a'].
        -- simpl in H. by rewrite H, starts_with_app in E.
        -- injection H as <- H. simpl. apply le_n_S. by eapply Hmin.
      * intros [(a & b & H & <-) Hmin]. destruct a as [|a0 a].
        -- simpl in H. by rewrite H, starts_with_app in E.
        -- injection H as <- ->. exists (length a). split; [|done].
           apply IH. split; [by exists a, b|].
           intros a' b' H. specialize (Hmin (c :: a') b').
           simpl in Hmin. rewrite H in Hmin. specialize (Hmin eq_refl). lia.
Qed.

(** *** Literal prefixes *)

Lemma match_literal (l : pystr) (q : list Re.item) (s : pystr) :
  Re.match_here (Re.literal l ++ q) (l ++ s) = Re.match_here q s.
Proof.
  induction l as [|c l IH]; simpl; [done|].
  rewrite N.eqb_refl. fold (Re.literal l). rewrite IH.
  by destruct (Re.match_here q s).
Qed.

Lemma match_literal_starts (l : pystr) (q : list Re.item) (s g : pystr) :
  Re.match_here (Re.literal l ++ q) s = Some g ->
  exists t, s = l ++ t /\ Re.match_here q t = Some g.
Proof.
  revert s. induction l as [|c l IH]; intros s; simpl.
  - intros H. by exists s.
  - destruct s as [|d s]; [done|].
    destruct (d =? c) eqn:E; [|done].
    apply N.eqb_eq in E as ->. fold (Re.literal l).
    destruct (Re.match_here (Re.literal l ++ q) s) as [g'|] eqn:Hm; [|done].
    simpl. intros [= <-].
    destruct (IH _ Hm) as (t & -> & Ht). by exists t.
Qed.

Lemma match_literal_fails (l : pystr) (q : list Re.item) (s : pystr) :
  starts_with l s = false -> Re.match_here (Re.literal l ++ q) s = None.
Proof.
  intros H.
  destruct (Re.match_here (Re.literal l ++ q) s) as [g|] eqn:Hm; [|done].
  apply match_literal_starts in Hm as (t & -> & _).
  by rewrite starts_with_app in H.
Qed.

(** *** Greedy repetition *)

(** White space before a match of the rest is skipped. *)
Lemma greedy_skips_space (k : pystr -> option pystr) (ws s g : pystr) :
  forallb Re.is_space ws = true ->
  match s with [] => True | c :: _ => Re.is_space c = false end ->
  k s = Some g ->
  Re.greedy Re.Space false k (ws ++ s) = Some g.
Proof.
  intros Hws Hs Hk. induction ws as [|c ws IH]; simpl in *.
  - destruct s as [|d s]; simpl; [done|]. by rewrite Hs.
  - apply andb_true_iff in Hws as [-> Hws]. by rewrite (IH Hws).
Qed.

(** The group takes the whole token. *)
Lemma greedy_takes_token (tok rest : pystr) :
  forallb (fun c => negb (Re.is_space c)) tok = true ->
  token_end rest ->
  Re.greedy Re.NonSpace true (Re.match_here []) (tok ++ rest) = Some tok.
Proof.
  intros Htok Hrest. induction tok as [|c tok IH]; simpl in *.
  - destruct rest as [|d rest]; simpl; [done|]. simpl in Hrest. by rewrite Hrest.
  - apply andb_true_iff in Htok as [Hc Htok]. rewrite Hc. by rewrite (IH Htok).
Qed.

(** What a greedy run returns comes from the rest of the pattern, with the
    characters of the run in front when the item is in the group. *)
Lemma greedy_inv (a : Re.atom) (grp : bool) (k : pystr -> option pystr)
    (s g : pystr) :
  Re.greedy a grp k s = Some g ->
  exists run t g',
    s = run ++ t /\ forallb (Re.accepts a) run = true /\ k t = Some g'
    /\ g = (if grp then run else []) ++ g'.
Proof.
  revert g. induction s as [|c s IH]; intros g; simpl.
  - intros H. exists [], [], g. by destruct grp.
  - destruct (Re.accepts a c) eqn:Ec.
    + destruct (Re.greedy a grp k s) as [g1|] eqn:Hg; simpl.
      * intros [= <-]. destruct (IH _ eq_refl) as (run & t & g' & -> & Hr & Hk & ->).
        exists (c :: run), t, g'. simpl. rewrite Ec, Hr.
        by destruct grp.
      * intros H. exists [], (c :: s), g. by destruct grp.
    + intros H. exists [], (c :: s), g. by destruct grp.
Qed.

(** *** The pattern of [extract_notion_id] *)

Lemma pattern_matches (ws tok rest : pystr) :
  forallb Re.is_space ws = true ->
  tok <> [] ->
  forallb (fun c => negb (Re.is_space c)) tok = true ->
  token_end rest ->
  Re.match_here NOTION_ID_RE (LABEL ++ ws ++ tok ++ rest) = Some tok.
Proof.
  intros Hws Hne Htok Hrest. unfold NOTION_ID_RE.
  rewrite match_literal. cbn [Re.match_here].
  destruct tok as [|c tok]; [done|]. simpl in Htok.
  apply andb_true_iff in Htok as [Hc Htok].
  apply (greedy_skips_space _ ws ((c :: tok) ++ rest)); [done| |].
  - simpl. by apply negb_true_iff.
  - simpl. rewrite Hc. by rewrite greedy_takes_token.
Qed.

Lemma pattern_inv (s g : pystr) :
  Re.match_here NOTION_ID_RE s = Some g ->
  starts_with LABEL s = true
  /\ g <> [] /\ forallb (fun c => negb (Re.is_space c)) g = true.
Proof.
  unfold NOTION_ID_RE. intros H.
  apply match_literal_starts in H as (t & -> & H).
  split; [apply starts_with_app|].
  cbn [Re.match_here] in H.
  apply greedy_inv in H as (ws & t' & g' & -> & _ & H & ->). simpl.
  destruct t' as [|c t']; [done|].
  destruct (Re.accepts Re.NonSpace c) eqn:Ec; [|done].
  destruct (Re.greedy Re.NonSpace true _ t') as [g1|] eqn:Hg; [|done].
  simpl in H. injection H as <-.
  apply greedy_inv in Hg as (run & t'' & g'' & -> & Hrun & Hk & ->).
  injection Hk as <-.
  split; [done|]. simpl. rewrite app_nil_r. simpl in Ec. by rewrite Ec.
Qed.

(** *** [re.search] *)

Lemma search_skips (q : list Re.item) (s : pystr) (n : nat) :
  find LABEL s = Some n ->
  Re.search (Re.literal LABEL ++ q) s
  = Re.search (Re.literal LABEL ++ q) (drop n s).
Proof.
  revert n. induction s as [|c s IH]; intros n.
  - simpl. destruct (starts_with LABEL []); [by intros [= <-]|done].
  - cbn [find]. destruct (starts_with LABEL (c :: s)) eqn:E.
    + by intros [= <-].
    + intros H. apply fmap_Some in H as (m & Hm & ->).
      cbn [Re.search drop]. rewrite match_literal_fails by done.
      by apply IH.
Qed.

Lemma search_no_label (q : list Re.item) (s : pystr) :
  find LABEL s = None -> Re.search (Re.literal LABEL ++ q) s = None.
Proof.
  induction s as [|c s IH]; cbn [find Re.search].
  - destruct (starts_with LABEL []) eqn:E; [done|].
    intros _. by rewrite match_literal_fails.
  - destruct (starts_with LABEL (c :: s)) eqn:E; [done|].
    intros H. apply fmap_None in H.
    rewrite match_literal_fails by done. by apply IH.
Qed.

Lemma search_inv (p : list Re.item) (s g : pystr) :
  Re.search p s = Some g ->
  exists a t, s = a ++ t /\ Re.match_here p t = Some g.
Proof.
  induction s as [|c s IH]; cbn [Re.search].
  - destruct (Re.match_here p []) eqn:E; [|done].
    intros [= <-]. by exists [], [].
  - destruct (Re.match_here p (c :: s)) eqn:E.
    + intros [= <-]. by exists [], (c :: s).
    + intros H. destruct (IH H) as (a & t & -> & Ht). by exists (c :: a), t.
Qed.

Lemma search_here (p : list Re.item) (s g : pystr) :
  Re.match_here p s = Some g -> Re.search p s = Some g.
Proof. intros H. destruct s; simpl; by rewrite H. Qed.

(** ** [extract_notion_id] *)

(** A string splits into its longest prefix without white space and a
    rest that is empty or starts with white space. *)
Lemma token_split (b : pystr) :
  exists tok rest, b = tok ++ rest /\ nonspace tok = true /\ token_end rest.
Proof.
  induction b as [|c b (tok & rest & -> & Htok & Hrest)].
  - by exists [], [].
  - destruct (Re.is_space c) eqn:Ec.
    + by exists [], (c :: tok ++ rest).
    + exists (c :: tok), rest. simpl. by rewrite Ec.
Qed.

(** A string that holds a character other than white space is white space,
    then a token, then a rest. *)
Lemma token_after_space (b : pystr) (c : N) :
  c ∈ b -> Re.is_space c = false ->
  exists ws tok rest,
    b = ws ++ tok ++ rest /\ forallb Re.is_space ws = true /\ tok <> []
    /\ nonspace tok = true /\ token_end rest.
Proof.
  intros Hin Hc. induction b as [|d b IH]; [by apply elem_of_nil in Hin|].
  destruct (Re.is_space d) eqn:Ed.
  - apply elem_of_cons in Hin as [->|Hin]; [congruence|].
    destruct (IH Hin) as (ws & tok & rest & -> & Hws & Hne & Htok & Hrest).
    exists (d :: ws), tok, rest. simpl. by rewrite Ed.
  - destruct (token_split b) as (tok & rest & -> & Htok & Hrest).
    exists [], (d :: tok), rest. simpl. by rewrite Ed.
Qed.

(** The label never occurs before the first occurrence of the label with a
    token: an earlier label would have that token, or an earlier one,
    after it. *)
Lemma first_occurrence_first_label (s pre ws tok rest : pystr) :
  occurrence s pre ws tok rest ->
  (forall pre' ws' tok' rest',
     occurrence s pre' ws' tok' rest' -> (length pre <= length pre')%nat) ->
  forall a b, s = a ++ LABEL ++ b -> (length pre <= length a)%nat.
Proof.
  intros (Hs & Hws & Hne & Htok & Hrest) Hfirst a b Hab.
  destruct (decide (length pre <= length a)%nat) as [|Hlt]; [done|].
  destruct tok as [|t tok]; [done|].
  assert (Ht : Re.is_space t = false).
  { simpl in Htok. apply andb_true_iff in Htok as [Ht _].
    by apply negb_true_iff. }
  assert (Hin : t ∈ b).
  { assert (Hl : s !! (length (pre ++ LABEL ++ ws)) = Some t).
    { replace s with ((pre ++ LABEL ++ ws) ++ t :: (tok ++ rest))
        by (by rewrite Hs, <- !app_assoc).
      by apply list_lookup_middle. }
    rewrite Hab, (app_assoc a) in Hl.
    rewrite lookup_app_r in Hl.
    - by eapply list_elem_of_lookup_2.
    - rewrite !length_app. lia. }
  destruct (token_after_space b t Hin Ht)
    as (ws' & tok' & rest' & -> & Hws' & Hne' & Htok' & Hrest').
  specialize (Hfirst a ws' tok' rest'). apply Hfirst. by split.
Qed.

(** C3. When the notes hold the label [Notion ID:], then optional white
    space, then a token [tok] of non-space characters that ends at the end
    of the notes or at white space, [extract_notion_id] returns exactly
    [tok], for the first such occurrence when there are several.  When the
    notes do not hold the label it returns [None]. *)
Theorem extract_notion_id_label (g : GTask) (s : pystr) :
  notes g = Some s ->
  (forall pre ws tok rest,
     occurrence s pre ws tok rest ->
     (forall pre' ws' tok' rest',
        occurrence s pre' ws' tok' rest' -> (length pre <= length pre')%nat) ->
     extract_notion_id g = Some tok)
  /\ (~ occurs LABEL s -> extract_notion_id g = None).
Proof.
  intros Hn. unfold extract_notion_id. rewrite Hn. split.
  - intros pre ws tok rest Hocc Hfirst.
    pose proof (first_occurrence_first_label _ _ _ _ _ Hocc Hfirst) as Hlabel.
    destruct Hocc as (Hs & Hws & Hne & Htok & Hrest).
    assert (Hfind : find LABEL s = Some (length pre)).
    { apply find_Some. split; [|done].
      exists pre, (ws ++ tok ++ rest). by rewrite Hs. }
    assert (Ht : truthy (Some s) = true).
    { rewrite Hs. destruct pre; done. }
    rewrite Ht. unfold NOTION_ID_RE.
    rewrite (search_skips _ _ _ Hfind).
    rewrite Hs, drop_app_length.
    apply search_here. by apply pattern_matches.
  - intros Hno. apply find_None in Hno.
    destruct (truthy (Some s)); [|done].
    by apply search_no_label.
Qed.

Lemma extract_notion_id_label_witness :
  extract_notion_id
    (mkGTask (str "t1") (str "Buy milk")
       (Some (str "Synced. Notion ID:   abc123 (do not edit)")) None)
  = Some (str "abc123")
  /\ extract_notion_id
       (mkGTask (str "t2") (str "Call Ann") (Some (str "no reference here")) None)
     = None.
Proof.
  split.
  - refine (proj1 (extract_notion_id_label
                     (mkGTask (str "t1") (str "Buy milk")
                        (Some (str "Synced. Notion ID:   abc123 (do not edit)")) None)
                     (str "Synced. Notion ID:   abc123 (do not edit)") eq_refl)
              (str "Synced. ") (str "   ") (str "abc123") (str " (do not edit)")
              _ _).
    + repeat split. discriminate.
    + intros pre' ws' tok' rest' (Hs & _).
      refine (proj2 (proj1 (find_Some LABEL _ 8) _) pre' _ Hs).
      vm_compute. reflexivity.
  - refine (proj2 (extract_notion_id_label
                     (mkGTask (str "t2") (str "Call Ann")
                        (Some (str "no reference here")) None)
                     (str "no reference here") eq_refl) _).
    apply find_None. vm_compute. reflexivity.
Defined.



(** ** [update_google_task_status] *)

(** What one call does, by the four cases of its two tests. *)
Lemma update_google_task_status_cases (g : GTask) (d : bool) (w : World) :
  update_google_task_status g d w =
    match d, completed g with
    | true, None =>
        let g' := mkGTask (task_id g) (title g) (notes g) (Some (clock w)) in
        (Ok g',
         mkWorld (clock w)
           (trace w
              ++ [MarkCompleted (task_id g);
                  Print (str "Marked '" ++ title g
                           ++ str "' as completed in Google Tasks.");
                  Update g'])
           (tasklists w))
    | false, Some _ =>
        let g' := mkGTask (task_id g) (title g) (notes g) None in
        (Ok g',
         mkWorld (clock w)
           (trace w
              ++ [MarkIncomplete (task_id g);
                  Print (str "Marked '" ++ title g
                           ++ str "' as not completed in Google Tasks.");
                  Update g'])
           (tasklists w))
    | _, _ =>
        (Ok g, mkWorld (clock w) (trace w ++ [Update g]) (tasklists w))
    end.
Proof.
  unfold update_google_task_status.
  destruct d, (completed g) as [ts|] eqn:Ec;
    cbn -[str app]; rewrite <- ?app_assoc; reflexivity.
Qed.

Lemma effects_app {A} (c : M A) (w : World) (es : list event) :
  trace (snd (c w)) = trace w ++ es -> effects c w = es.
Proof. unfold effects. intros ->. apply drop_app_length. Qed.

(** C1. After one call of [update_google_task_status] with [notion_done]
    the call has returned, and the task is done exactly when [notion_done]
    is true, whatever its state was before; this is also the state the
    closing [gtask.update()] sends to the service. *)
Theorem update_google_task_status_done (g : GTask) (notion_done : bool)
    (w : World) :
  exists g' w',
    update_google_task_status g notion_done w = (Ok g', w')
    /\ is_done g' = notion_done
    /\ last (trace w') = Some (Update g').
Proof.
  rewrite update_google_task_status_cases. unfold is_done.
  destruct notion_done, (completed g) as [ts|] eqn:Ec;
    eexists _, _; (split; [reflexivity|]); simpl;
    (split; [by rewrite ?Ec|]);
    by rewrite last_app.
Qed.

(** Calling again with the same [notion_done] changes nothing: the second
    call issues no state-changing command, returns the task as it is, and
    only repeats [gtask.update()]. *)
Lemma update_google_task_status_again (g : GTask) (notion_done : bool)
    (w : World) :
  forall g1 w1,
    update_google_task_status g notion_done w = (Ok g1, w1) ->
    update_google_task_status g1 notion_done w1
    = (Ok g1, mkWorld (clock w1) (trace w1 ++ [Update g1]) (tasklists w1)).
Proof.
  intros g1 w1. rewrite !update_google_task_status_cases.
  destruct notion_done, (completed g) as [ts|] eqn:Ec; intros [= <- <-];
    simpl; by rewrite ?Ec.
Qed.

Lemma update_google_task_status_again_witness :
  update_google_task_status
    (mkGTask (str "t1") (str "Buy milk") (Some (str "Notion ID: abc123")) (Some 0%Z))
    true
    (mkWorld 0
       [MarkCompleted (str "t1");
        Print (str "Marked 'Buy milk' as completed in Google Tasks.");
        Update (mkGTask (str "t1") (str "Buy milk")
                  (Some (str "Notion ID: abc123")) (Some 0%Z))]
       ∅)
  = (Ok (mkGTask (str "t1") (str "Buy milk") (Some (str "Notion ID: abc123")) (Some 0%Z)),
     mkWorld 0
       [MarkCompleted (str "t1");
        Print (str "Marked 'Buy milk' as completed in Google Tasks.");
        Update (mkGTask (str "t1") (str "Buy milk")
                  (Some (str "Notion ID: abc123")) (Some 0%Z));
        Update (mkGTask (str "t1") (str "Buy milk")
                  (Some (str "Notion ID: abc123")) (Some 0%Z))]
       ∅).
Proof.
  exact (update_google_task_status_again
           (mkGTask (str "t1") (str "Buy milk") (Some (str "Notion ID: abc123")) None)
           true (mkWorld 0 [] ∅) _ _ eq_refl).
Defined.

(** C10. A call of [update_google_task_status] leaves the identifier, the
    title and the notes of the task as they were, and with them the Notion
    id that [extract_notion_id] reads from the notes. *)
Theorem update_google_task_status_frame (g : GTask) (notion_done : bool)
    (w : World) :
  exists g' w',
    update_google_task_status g notion_done w = (Ok g', w')
    /\ task_id g' = task_id g
    /\ title g' = title g
    /\ notes g' = notes g
    /\ extract_notion_id g' = extract_notion_id g.
Proof.
  rewrite update_google_task_status_cases.
  destruct notion_done, (completed g) as [ts|];
    eexists _, _; (split; [reflexivity|]); done.
Qed.

(** The claim C2 as stated fails: on an open task with [notion_done]
    false nothing differs, and [gtask.update()] is called all the same. *)
Lemma update_called_when_equal :
  let g := mkGTask (str "t1") (str "Buy milk") None None in
  let w := mkWorld 0 [] ∅ in
  ~ (existsb is_update (effects (update_google_task_status g false) w) = true
     <-> false <> is_done g).
Proof.
  cbv zeta. intros [H _]. by apply H.
Qed.

(** C2, amended. A call of [update_google_task_status] issues the
    state-changing command ([mark_completed] or [mark_incomplete]) if and
    only if [notion_done] differs from the task's done-ness, and it issues
    it once; the call [gtask.update()] is made exactly once in every
    case, also when nothing differs. *)
Theorem update_google_task_status_calls (g : GTask) (notion_done : bool)
    (w : World) :
  let es := effects (update_google_task_status g notion_done) w in
  (existsb is_mark es = true <-> notion_done <> is_done g)
  /\ length (filter (fun e => is_mark e = true) es)
     = (if bool_decide (notion_done = is_done g) then 0 else 1)%nat
  /\ length (filter (fun e => is_update e = true) es) = 1%nat.
Proof.
  cbv zeta. unfold is_done.
  destruct notion_done, (completed g) as [ts|] eqn:Ec;
    (erewrite effects_app;
       [|rewrite update_google_task_status_cases, Ec; reflexivity]);
    simpl; (split; [|done]); split; congruence.
Qed.

(** ** The query filter *)

(** C4. The filter [sync_inbox_to_gtasks] builds selects a page if and
    only if its [Status] is [Organized], its [For Later] checkbox is false
    and its [Dump It] checkbox is false; the query returns the pages of the
    database that satisfy all three, and no other. *)
Theorem combined_filter_conjunction (p : Page) :
  (holds combined_filter p = true <->
     props p !! str "Status" = Some (Select (str "Organized"))
     /\ props p !! str "For Later" = Some (Checkbox false)
     /\ props p !! str "Dump It" = Some (Checkbox false))
  /\ (forall db : Database,
        p ∈ query db combined_filter <->
          p ∈ pages db
          /\ props p !! str "Status" = Some (Select (str "Organized"))
          /\ props p !! str "For Later" = Some (Checkbox false)
          /\ props p !! str "Dump It" = Some (Checkbox false)).
Proof.
  assert (H : holds combined_filter p = true <->
     props p !! str "Status" = Some (Select (str "Organized"))
     /\ props p !! str "For Later" = Some (Checkbox false)
     /\ props p !! str "Dump It" = Some (Checkbox false)).
  { unfold combined_filter, status_filter, for_later_filter, dump_it_filter.
    cbn [holds]. rewrite !andb_true_iff, !bool_decide_eq_true. tauto. }
  split; [exact H|].
  intros db. unfold query. rewrite list_elem_of_filter. tauto.
Qed.

Example filter_selects :
  holds combined_filter
    (mkPage (str "abc123") (str "Buy milk")
       {[ str "Status" := Select (str "Organized");
          str "For Later" := Checkbox false;
          str "Dump It" := Checkbox false ]}) = true.
Proof. vm_compute. reflexivity. Qed.

Example filter_rejects_dumped :
  holds combined_filter
    (mkPage (str "abc123") (str "Buy milk")
       {[ str "Status" := Select (str "Organized");
          str "For Later" := Checkbox false;
          str "Dump It" := Checkbox true ]}) = false.
Proof. vm_compute. reflexivity. Qed.

(** ** [sync_inbox_to_gtasks] *)

Lemma prints_only_ret {A} (a : A) : prints_only (ret a).
Proof. intros w. exists []. simpl. by rewrite app_nil_r. Qed.

Lemma prints_only_raise {A} (e : exn) : prints_only (@raise A e).
Proof. intros w. exists []. simpl. by rewrite app_nil_r. Qed.

Lemma prints_only_print (line : pystr) : prints_only (print line).
Proof. intros w. by exists [line]. Qed.

Lemma prints_only_bind {A B} (c : M A) (k : A -> M B) :
  prints_only c -> (forall a, prints_only (k a)) -> prints_only (bind c k).
Proof.
  intros Hc Hk w. unfold bind.
  destruct (Hc w) as [l1 H1]. destruct (c w) as [[a|e] w1]; simpl in *.
  - destruct (Hk a w1) as [l2 H2]. exists (l1 ++ l2).
    by rewrite H2, H1, map_app, app_assoc.
  - by exists l1.
Qed.

Lemma prints_only_try {A} (c : M A) (h : exn -> M A) :
  prints_only c -> (forall e, prints_only (h e)) -> prints_only (try_except c h).
Proof.
  intros Hc Hh w. unfold try_except.
  destruct (Hc w) as [l1 H1]. destruct (c w) as [[a|e] w1]; simpl in *.
  - by exists l1.
  - destruct (is_Exception e); [|by exists l1].
    destruct (Hh e w1) as [l2 H2]. exists (l1 ++ l2).
    by rewrite H2, H1, map_app, app_assoc.
Qed.

Lemma prints_only_for_each {A} (l : list A) (body : A -> M unit) :
  (forall x, prints_only (body x)) -> prints_only (for_each l body).
Proof.
  intros Hb. induction l as [|x l IH]; simpl.
  - apply prints_only_ret.
  - apply prints_only_bind; [apply Hb|by intros _].
Qed.

Lemma prints_only_getitem {V} (d : gmap pystr V) (key : pystr) :
  prints_only (getitem d key).
Proof.
  unfold getitem. destruct (d !! key);
    [apply prints_only_ret|apply prints_only_raise].
Qed.

Lemma prints_only_next {A} (l : list A) : prints_only (next l).
Proof. destruct l; [apply prints_only_raise|apply prints_only_ret]. Qed.

Lemma prints_only_get_prop (db : Database) (name : pystr) :
  prints_only (get_prop db name).
Proof.
  unfold get_prop. destruct (schema db !! name);
    [apply prints_only_ret|apply prints_only_raise].
Qed.

Lemma prints_only_schema_status (db : Database) :
  prints_only (schema_status db).
Proof.
  unfold schema_status. destruct (schema db !! _);
    [apply prints_only_ret|apply prints_only_raise].
Qed.

Lemma prints_only_option_named (col : Column) (name : pystr) :
  prints_only (option_named col name).
Proof.
  unfold option_named. destruct (bool_decide _);
    [apply prints_only_ret|apply prints_only_raise].
Qed.

Lemma prints_only_get_or_create_tasklist (name : pystr) :
  prints_only (get_or_create_tasklist name).
Proof.
  intros w. exists []. unfold get_or_create_tasklist.
  destruct (tasklists w !! name); simpl; by rewrite app_nil_r.
Qed.

Create HintDb prints discriminated.
#[local] Hint Resolve prints_only_ret prints_only_raise prints_only_print
  prints_only_getitem prints_only_next prints_only_get_prop
  prints_only_schema_status prints_only_option_named
  prints_only_get_or_create_tasklist : prints.

Ltac prints_only_step :=
  first
    [ apply prints_only_bind; [|intros ?]
    | apply prints_only_for_each; intros ?
    | solve [auto with prints] ].

(** Whatever the database and the library, the function's own effects are
    prints: it issues no [mark_completed], [mark_incomplete] or [update],
    so it never runs [update_google_task_status], and it never sleeps. *)
Lemma sync_inbox_to_gtasks_prints_only
    (render : PropValue -> pystr)
    (run_all_tasks :
       list Scheduled -> gmap pystr (list GTask) -> gmap pystr (list GTask))
    (db : Database) :
  prints_only (sync_inbox_to_gtasks render run_all_tasks db).
Proof.
  unfold sync_inbox_to_gtasks. destruct (is_empty db).
  - apply prints_only_print.
  - repeat prints_only_step.
    intros w. exists []. simpl. by rewrite app_nil_r.
Qed.

(** C5. When the database that was loaded reports [is_empty], the branch
    the code takes for a collection it could not load,
    [sync_inbox_to_gtasks] prints the one line that names the database and
    returns normally; it issues no call on any task and leaves every task
    list as it was. *)
Theorem sync_inbox_to_gtasks_empty
    (render : PropValue -> pystr)
    (run_all_tasks :
       list Scheduled -> gmap pystr (list GTask) -> gmap pystr (list GTask))
    (db : Database) (w : World) :
  is_empty db = true ->
  sync_inbox_to_gtasks render run_all_tasks db w
  = (Ok tt,
     mkWorld (clock w)
       (trace w
          ++ [Print (str "Could not load the Notion database with ID: 110f4691b8df8196963fd95c0a64682f.")])
       (tasklists w)).
Proof.
  intros H. unfold sync_inbox_to_gtasks. rewrite H. reflexivity.
Qed.

Lemma sync_inbox_to_gtasks_empty_witness :
  sync_inbox_to_gtasks (fun _ => []) (fun _ lists => lists)
    (mkDatabase true (schema scenario_db) (pages scenario_db)) scenario_world
  = (Ok tt,
     mkWorld 0
       [Print (str "Could not load the Notion database with ID: 110f4691b8df8196963fd95c0a64682f.")]
       (tasklists scenario_world)).
Proof.
  exact (sync_inbox_to_gtasks_empty (fun _ => []) (fun _ lists => lists)
           (mkDatabase true (schema scenario_db) (pages scenario_db))
           scenario_world eq_refl).
Defined.

(** C6, the code at the scenario.  The page passes the filter and its task
    exists with the back-reference, yet the run only prints the page and
    hands the whole database to the library, with the [Status] column and
    its options [Done] and [Backlog] as the completion test: the trace
    holds no [mark_completed] and no [update], so
    [update_google_task_status] was not called, the [Done!] checkbox was
    not read, and the task lists are what the library made of them. *)
Theorem sync_inbox_to_gtasks_scenario
    (render : PropValue -> pystr)
    (run_all_tasks :
       list Scheduled -> gmap pystr (list GTask) -> gmap pystr (list GTask)) :
  scenario_page ∈ query scenario_db combined_filter
  /\ extract_notion_id scenario_task = Some (page_id scenario_page)
  /\ sync_inbox_to_gtasks render run_all_tasks scenario_db scenario_world
     = (Ok tt,
        mkWorld 0
          [Print (str "Task: Buy milk");
           Print (str "Status: " ++ render (Select (str "Organized")));
           Print (str "For Later: " ++ render (Checkbox false));
           Print (str "Dump It: " ++ render (Checkbox false) ++ newline);
           Print (str "Sync complete." ++ newline)]
          (run_all_tasks
             [mkScheduled
                (mkSyncGTasks scenario_db (str "My synced task list")
                   scenario_status_col (str "Done") (str "Backlog")
                   scenario_date_col)
                1 2]
             (tasklists scenario_world))).
Proof.
  split; [|split].
  - apply list_elem_of_filter. split; [|by left]. vm_compute. reflexivity.
  - vm_compute. reflexivity.
  - vm_compute. reflexivity.
Qed.

(** ** The main loop *)

Lemma sleeps_app (a b : list event) : sleeps (a ++ b) = sleeps a ++ sleeps b.
Proof.
  induction a as [|e a IH]; simpl; [done|].
  destruct e; simpl; by rewrite ?IH.
Qed.

Lemma sleeps_prints (lines : list pystr) : sleeps (map Print lines) = [].
Proof. induction lines; simpl; done. Qed.

(** What the code of [sync_inbox_to_gtasks] raises itself is of class
    [Exception]. *)

Lemma raises_ret {A} (a : A) : raises_only_exceptions (ret a).
Proof. by intros w e w'. Qed.

Lemma raises_print (line : pystr) : raises_only_exceptions (print line).
Proof. by intros w e w'. Qed.

Lemma raises_bind {A B} (c : M A) (k : A -> M B) :
  raises_only_exceptions c -> (forall a, raises_only_exceptions (k a)) ->
  raises_only_exceptions (bind c k).
Proof.
  intros Hc Hk w e w'. unfold bind.
  destruct (c w) as [[a|e1] w1] eqn:E.
  - apply Hk.
  - intros [= <- <-]. by eapply Hc.
Qed.

Lemma raises_for_each {A} (l : list A) (body : A -> M unit) :
  (forall x, raises_only_exceptions (body x)) ->
  raises_only_exceptions (for_each l body).
Proof.
  intros Hb. induction l as [|x l IH]; simpl.
  - apply raises_ret.
  - apply raises_bind; [apply Hb|by intros _].
Qed.

Lemma raises_getitem {V} (d : gmap pystr V) (key : pystr) :
  raises_only_exceptions (getitem d key).
Proof.
  intros w e w'. unfold getitem. destruct (d !! key); [done|].
  by intros [= <- <-].
Qed.

Lemma raises_next {A} (l : list A) : raises_only_exceptions (next l).
Proof. intros w e w'. destruct l; [|done]. by intros [= <- <-]. Qed.

Lemma raises_get_prop (db : Database) (name : pystr) :
  raises_only_exceptions (get_prop db name).
Proof.
  intros w e w'. unfold get_prop. destruct (schema db !! name); [done|].
  by intros [= <- <-].
Qed.

Lemma raises_schema_status (db : Database) :
  raises_only_exceptions (schema_status db).
Proof.
  intros w e w'. unfold schema_status. destruct (schema db !! _); [done|].
  by intros [= <- <-].
Qed.

Lemma raises_option_named (col : Column) (name : pystr) :
  raises_only_exceptions (option_named col name).
Proof.
  intros w e w'. unfold option_named. destruct (bool_decide _); [done|].
  by intros [= <- <-].
Qed.

Lemma raises_get_or_create_tasklist (name : pystr) :
  raises_only_exceptions (get_or_create_tasklist name).
Proof.
  intros w e w'. unfold get_or_create_tasklist.
  by destruct (tasklists w !! name).
Qed.

Create HintDb raises discriminated.
#[local] Hint Resolve raises_ret raises_print raises_getitem raises_next
  raises_get_prop raises_schema_status raises_option_named
  raises_get_or_create_tasklist : raises.

Ltac raises_step :=
  first
    [ apply raises_bind; [|intros ?]
    | apply raises_for_each; intros ?
    | solve [auto with raises] ].

Lemma sync_inbox_to_gtasks_raises
    (render : PropValue -> pystr)
    (run_all_tasks :
       list Scheduled -> gmap pystr (list GTask) -> gmap pystr (list GTask))
    (db : Database) :
  raises_only_exceptions (sync_inbox_to_gtasks render run_all_tasks db).
Proof.
  unfold sync_inbox_to_gtasks. destruct (is_empty db).
  - apply raises_print.
  - repeat raises_step. by intros w e w'.
Qed.

(** [while True] after one more pass: the passes before, then the last. *)
Lemma while_true_step (body : nat -> M unit) (fuel cycle : nat) (w : World) :
  while_true body cycle (S fuel) w
  = match body cycle w with
    | (Ok _, w1) => while_true body (S cycle) fuel w1
    | (Raise e, w1) => (Raise e, w1)
    end.
Proof. reflexivity. Qed.

Lemma while_true_snoc (body : nat -> M unit) (fuel cycle : nat) (w : World) :
  while_true body cycle (S fuel) w
  = (while_true body cycle fuel ;;; body (cycle + fuel)%nat) w.
Proof.
  revert cycle w. induction fuel as [|fuel IH]; intros cycle w.
  - rewrite while_true_step. unfold bind. cbn [while_true]. unfold ret.
    rewrite Nat.add_0_r. by destruct (body cycle w) as [[[]|e] w1].
  - rewrite while_true_step. unfold bind at 1. rewrite while_true_step.
    destruct (body cycle w) as [[[]|e] w1]; [|done].
    rewrite IH. unfold bind. by rewrite Nat.add_succ_r.
Qed.

Section MainLoop.

Variable message : exn -> pystr.

(** One pass, whatever the call in the [try] does: when the call returns,
    the sleep; when it raises an exception of class [Exception], the print
    of the exception and then the sleep; when it raises any other, nothing
    more, and the exception leaves the pass. *)
Lemma loop_pass_run (call : M unit) (w : World) :
  loop_pass message call w =
    match call w with
    | (Ok _, w1) =>
        (Ok tt,
         mkWorld (clock w1 + SYNC_INTERVAL)%Z
           (trace w1 ++ [Sleep SYNC_INTERVAL]) (tasklists w1))
    | (Raise e, w1) =>
        if is_Exception e then
          (Ok tt,
           mkWorld (clock w1 + SYNC_INTERVAL)%Z
             (trace w1
                ++ [Print (str "An error occurred during sync: " ++ message e);
                    Sleep SYNC_INTERVAL])
             (tasklists w1))
        else (Raise e, w1)
    end.
Proof.
  unfold loop_pass, bind, try_except.
  destruct (call w) as [[[]|e] w1]; [reflexivity|].
  destruct (is_Exception e); [|reflexivity].
  unfold print, emit, sleep. cbn [clock trace tasklists].
  by rewrite <- app_assoc.
Qed.

Lemma loop_pass_returns (call : M unit) (w : World) :
  raises_only_exceptions call -> fst (loop_pass message call w) = Ok tt.
Proof.
  intros Hc. rewrite loop_pass_run.
  destruct (call w) as [[[]|e] w1] eqn:E; [done|].
  by rewrite (Hc _ _ _ E).
Qed.

Lemma while_true_returns (calls : nat -> M unit) (fuel cycle : nat)
    (w : World) :
  (forall n, raises_only_exceptions (calls n)) ->
  fst (while_true (fun n => loop_pass message (calls n)) cycle fuel w) = Ok tt.
Proof.
  intros Hc. revert cycle w. induction fuel as [|fuel IH]; intros cycle w.
  - done.
  - cbn [while_true]. unfold bind.
    pose proof (loop_pass_returns (calls cycle) w (Hc cycle)) as Hr.
    destruct (loop_pass message (calls cycle) w) as [[[]|e] w1]; [|done].
    apply IH.
Qed.


End MainLoop.



(** * Further properties of the code *)

(** ** [extract_notion_id] *)

Lemma forallb_drop {A} (f : A -> bool) (n : nat) (l : list A) :
  forallb f l = true -> forallb f (drop n l) = true.
Proof.
  revert n. induction l as [|x l IH]; intros [|n] H; simpl in *; try done.
  apply andb_true_iff in H as [_ H]. by apply IH.
Qed.

(** White space alone is no identifier. *)
Lemma pattern_needs_token (t : pystr) :
  forallb Re.is_space t = true ->
  Re.match_here NOTION_ID_RE (LABEL ++ t) = None.
Proof.
  intros Ht.
  destruct (Re.match_here NOTION_ID_RE (LABEL ++ t)) as [g|] eqn:Hm; [|done].
  unfold NOTION_ID_RE in Hm. rewrite match_literal in Hm.
  cbn [Re.match_here] in Hm.
  apply greedy_inv in Hm as (run & t' & g' & -> & _ & Hk & _).
  rewrite forallb_app in Ht. apply andb_true_iff in Ht as [_ Ht].
  destruct t' as [|c t']; [done|]. simpl in Ht, Hk.
  apply andb_true_iff in Ht as [Hc _]. by rewrite Hc in Hk.
Qed.

(** A label with nothing but white space after it, up to the end of the
    notes, gives no identifier: when the first occurrence of the label is
    followed only by white space, [extract_notion_id] returns [None]. *)
Theorem extract_notion_id_label_without_token (g : GTask) (pre ws : pystr) :
  notes g = Some (pre ++ LABEL ++ ws) ->
  (forall a b, pre ++ LABEL ++ ws = a ++ LABEL ++ b ->
               (length pre <= length a)%nat) ->
  forallb Re.is_space ws = true ->
  extract_notion_id g = None.
Proof.
  intros Hn Hfirst Hws. unfold extract_notion_id. rewrite Hn.
  destruct (truthy _); [|done].
  destruct (Re.search NOTION_ID_RE (pre ++ LABEL ++ ws)) as [x|] eqn:E; [|done].
  apply search_inv in E as (a & t & Hs & Hm).
  destruct (pattern_inv _ _ Hm) as (Hst & _).
  apply starts_with_inv in Hst as [b ->].
  pose proof (Hfirst a b Hs) as Hle.
  assert (Hb : b = drop (length a - length pre) ws).
  { apply (f_equal (drop (length a + length LABEL))) in Hs.
    rewrite (app_assoc a), <- length_app, drop_app_length in Hs.
    rewrite (app_assoc pre), drop_app_ge in Hs
      by (rewrite !length_app; lia).
    rewrite !length_app in Hs. rewrite <- Hs. f_equal. lia. }
  rewrite pattern_needs_token in Hm; [done|].
  rewrite Hb. by apply forallb_drop.
Qed.

Lemma extract_notion_id_label_without_token_witness :
  extract_notion_id
    (mkGTask (str "t1") (str "Buy milk") (Some (str "todo Notion ID:   ")) None)
  = None.
Proof.
  refine (extract_notion_id_label_without_token
            (mkGTask (str "t1") (str "Buy milk")
               (Some (str "todo Notion ID:   ")) None)
            (str "todo ") (str "   ") eq_refl _ eq_refl).
  apply (find_Some LABEL (str "todo Notion ID:   ") 5). vm_compute. reflexivity.
Defined.

(** The convention of the docstring round-trips exactly for identifiers
    that are not empty and hold no white space: from notes written as
    [Notion ID: <the_id>], [extract_notion_id] reads back [the_id] if and
    only if [the_id] is such an identifier. *)
Theorem extract_notion_id_round_trip (tid ttl the_id : pystr)
    (done_at : option Z) :
  extract_notion_id
    (mkGTask tid ttl (Some (str "Notion ID: " ++ the_id)) done_at)
  = Some the_id
  <-> the_id <> [] /\ nonspace the_id = true.
Proof.
  unfold extract_notion_id. cbn [notes].
  change (str "Notion ID: " ++ the_id) with (LABEL ++ 32 :: the_id).
  change (truthy (Some (LABEL ++ 32 :: the_id))) with true. cbv iota.
  split.
  - intros E. apply search_inv in E as (a & t & _ & Hm).
    by apply pattern_inv in Hm as (_ & Hne & Hx).
  - intros [Hne Hx]. apply search_here.
    pose proof (pattern_matches [32] the_id [] eq_refl Hne Hx I) as H.
    by rewrite app_nil_r in H.
Qed.

(** ** [update_google_task_status] *)

(** Two calls in a row: the task ends in the state the second call asks
    for, [gtask.update()] has been made twice, and the state-changing
    commands issued are as many as the state changed: one when the first
    flag differs from the task's state, one when the second flag differs
    from the first. *)
Theorem update_google_task_status_twice (g : GTask) (d1 d2 : bool)
    (w : World) :
  let both :=
    g1 <- update_google_task_status g d1 ;; update_google_task_status g1 d2 in
  exists g2 w2,
    both w = (Ok g2, w2)
    /\ is_done g2 = d2
    /\ length (filter (fun e => is_update e = true) (effects both w)) = 2%nat
    /\ length (filter (fun e => is_mark e = true) (effects both w))
       = ((if bool_decide (d1 = is_done g) then 0 else 1)
          + (if bool_decide (d2 = d1) then 0 else 1))%nat.
Proof.
  cbv zeta. unfold is_done.
  destruct d1, d2, (completed g) as [ts|] eqn:Ec;
    (erewrite effects_app;
       [|unfold bind; rewrite (update_google_task_status_cases g), Ec; simpl;
         rewrite ?update_google_task_status_cases; simpl; rewrite ?Ec;
         simpl; rewrite <- ?app_assoc; reflexivity]);
    unfold bind; rewrite (update_google_task_status_cases g), Ec; simpl;
    rewrite ?update_google_task_status_cases; simpl; rewrite ?Ec;
    eexists _, _; (split; [reflexivity|]); rewrite ?Ec; done.
Qed.

(** ** [sync_inbox_to_gtasks] *)

Section Sync.

Variable render : PropValue -> pystr.
Variable run_all_tasks :
  list Scheduled -> gmap pystr (list GTask) -> gmap pystr (list GTask).

Lemma next_not_named (name : pystr) (l : list pystr) (w : World) :
  name ∉ l -> next (filter (fun o => o = name) l) w = (Raise StopIteration, w).
Proof.
  intros H. induction l as [|x l IH]; [done|].
  apply not_elem_of_cons in H as [Hne H].
  rewrite filter_cons. destruct (decide (x = name)) as [->|_]; [done|].
  by apply IH.
Qed.

(** Without an option named [Organized] in the [Status] column the
    generator given to [next] is exhausted: the run raises [StopIteration]
    before it has queried, printed or touched anything. *)
Theorem sync_inbox_to_gtasks_no_organized (db : Database) (c : Column)
    (w : World) :
  is_empty db = false ->
  schema db !! str "Status" = Some c ->
  str "Organized" ∉ options c ->
  sync_inbox_to_gtasks render run_all_tasks db w = (Raise StopIteration, w).
Proof.
  intros He Hs Ho. unfold sync_inbox_to_gtasks. rewrite He.
  unfold bind at 1. unfold schema_status. rewrite Hs. unfold ret at 1.
  unfold bind at 1. by rewrite (next_not_named _ _ _ Ho).
Qed.


End Sync.

Lemma sync_inbox_to_gtasks_no_organized_witness :
  sync_inbox_to_gtasks (fun _ => []) (fun _ lists => lists)
    no_organized_db scenario_world
  = (Raise StopIteration, scenario_world).
Proof.
  refine (sync_inbox_to_gtasks_no_organized (fun _ => []) (fun _ lists => lists)
            no_organized_db (mkColumn (str "Status") [str "Backlog"; str "Done"])
            scenario_world eq_refl eq_refl _).
  apply (bool_decide_unpack _). vm_compute. exact I.
Defined.

(** ** The main loop on an empty database *)

Lemma while_true_empty_inbox
    (render : PropValue -> pystr)
    (run_all_tasks :
       list Scheduled -> gmap pystr (list GTask) -> gmap pystr (list GTask))
    (message : exn -> pystr) (inbox : nat -> Database)
    (fuel cycle : nat) (w : World) :
  (forall n, is_empty (inbox n) = true) ->
  while_true (loop_body render run_all_tasks message inbox) cycle fuel w
  = (Ok tt,
     mkWorld (clock w + 60 * Z.of_nat fuel)%Z
       (trace w ++ concat (replicate fuel [Print COULD_NOT_LOAD; Sleep 60]))
       (tasklists w)).
Proof.
  intros He. revert cycle w. induction fuel as [|fuel IH]; intros cycle w.
  - simpl. unfold ret. destruct w; simpl. f_equal. f_equal; [lia|].
    by rewrite app_nil_r.
  - cbn [while_true]. unfold bind at 1. unfold loop_body at 1.
    rewrite loop_pass_run. unfold sync_inbox_to_gtasks. rewrite He.
    cbn [print emit clock trace tasklists]. rewrite IH.
    cbn [clock trace tasklists replicate concat]. f_equal. f_equal.
    + unfold SYNC_INTERVAL. lia.
    + by rewrite <- !app_assoc.
Qed.

(** While the database reports [is_empty] in every cycle, the program
    never touches the Google Tasks account: after any number of passes the
    task lists are as at the start, and all it has done is print the
    starting line and then, once per pass, print the line that names the
    database and sleep 60. *)
Theorem main_empty_inbox
    (render : PropValue -> pystr)
    (run_all_tasks :
       list Scheduled -> gmap pystr (list GTask) -> gmap pystr (list GTask))
    (message : exn -> pystr) (inbox : nat -> Database)
    (fuel : nat) (w : World) :
  (forall cycle, is_empty (inbox cycle) = true) ->
  main render run_all_tasks message inbox fuel w
  = (Ok tt,
     mkWorld (clock w + 60 * Z.of_nat fuel)%Z
       (trace w
          ++ Print (str "Starting Notion-to-Google Tasks sync...")
          :: concat (replicate fuel [Print COULD_NOT_LOAD; Sleep 60]))
       (tasklists w)).
Proof.
  intros He. unfold main, bind at 1, print, emit.
  rewrite (while_true_empty_inbox _ _ _ _ _ _ _ He).
  cbn [clock trace tasklists]. by rewrite <- app_assoc.
Qed.

Lemma main_empty_inbox_witness :
  main (fun _ => []) (fun _ lists => lists) (fun _ => []) (fun _ => empty_db)
    2 scenario_world
  = (Ok tt,
     mkWorld 120
       [Print (str "Starting Notion-to-Google Tasks sync...");
        Print COULD_NOT_LOAD; Sleep 60; Print COULD_NOT_LOAD; Sleep 60]
       (tasklists scenario_world)).
Proof.
  exact (main_empty_inbox (fun _ => []) (fun _ lists => lists) (fun _ => [])
           (fun _ => empty_db) 2 scenario_world (fun _ => eq_refl)).
Defined.

(** ** Where an identifier comes from *)

Lemma greedy_some (a : Re.atom) (grp : bool) (s : pystr) :
  is_Some (Re.greedy a grp (fun _ => Some []) s).
Proof.
  induction s as [|c s [g Hg]]; simpl; [done|].
  destruct (Re.accepts a c); [|done]. by rewrite Hg.
Qed.

Lemma greedy_token (s g : pystr) :
  Re.greedy Re.NonSpace true (fun _ => Some []) s = Some g ->
  exists rest, s = g ++ rest /\ nonspace g = true /\ token_end rest.
Proof.
  unfold nonspace. revert g. induction s as [|c s IH]; intros g; simpl.
  - intros [= <-]. by exists [].
  - destruct (Re.is_space c) eqn:Ec; simpl.
    + intros [= <-]. by exists (c :: s).
    + destruct (greedy_some Re.NonSpace true s) as [g1 Hg]. rewrite Hg.
      simpl. intros [= <-].
      destruct (IH _ Hg) as (rest & -> & Hg1 & Hrest).
      exists rest. simpl. by rewrite Ec.
Qed.

(** Every identifier [extract_notion_id] returns stands in the notes right
    after the label and the white space that follows it, and is the whole
    token there: the function invents nothing and cuts nothing short. *)
Theorem extract_notion_id_sound (g : GTask) (s x : pystr) :
  notes g = Some s ->
  extract_notion_id g = Some x ->
  exists pre ws rest, occurrence s pre ws x rest.
Proof.
  intros Hn. unfold extract_notion_id. rewrite Hn.
  destruct (truthy (Some s)); [|done].
  intros E. apply search_inv in E as (pre & t & -> & Hm).
  unfold NOTION_ID_RE in Hm.
  apply match_literal_starts in Hm as (t1 & -> & Hm).
  cbn [Re.match_here] in Hm.
  apply greedy_inv in Hm as (ws & t2 & g' & -> & Hws & Hk & ->).
  destruct t2 as [|c t2]; [done|]. simpl in Hk.
  destruct (Re.is_space c) eqn:Ec; [done|]. simpl in Hk.
  destruct (Re.greedy Re.NonSpace true _ t2) as [g1|] eqn:Hg; [|done].
  simpl in Hk. injection Hk as <-.
  apply greedy_token in Hg as (rest & -> & Hg1 & Hrest).
  exists pre, ws, rest. unfold occurrence. simpl.
  rewrite Ec, Hg1. repeat split; try done.
Qed.

Lemma extract_notion_id_sound_witness :
  exists pre ws rest,
    occurrence (str "Synced. Notion ID:   abc123 (do not edit)")
      pre ws (str "abc123") rest.
Proof.
  exact (extract_notion_id_sound
           (mkGTask (str "t1") (str "Buy milk")
              (Some (str "Synced. Notion ID:   abc123 (do not edit)")) None)
           (str "Synced. Notion ID:   abc123 (do not edit)") (str "abc123")
           eq_refl eq_refl).
Defined.
